(** * GiftHarmony: the browser-side API client (src/services/api.ts)

    A shallow embedding of the [ApiService] class: its session token kept in
    step with [localStorage], its header builder, its response
    normalisation and its resource methods, followed by the properties the
    specification states about them.

    Conventions.  A JavaScript [string] is a [string] (read as the UTF-8
    bytes of the text); a [number] is a [Z], which covers the integral ids,
    page counts, quantities and status codes this client handles (fractions,
    NaN and the infinities are outside the model); [null] and [undefined]
    are [None] at the types [string | null] and [T | undefined]. *)

From stdpp Require Import base option list strings gmap pretty.

Local Open Scope string_scope.
Local Open Scope Z_scope.
Local Set Warnings "-register-all".

(** ** Values *)

(** The values [JSON.parse] produces and [JSON.stringify] consumes.  An
    object keeps its properties in insertion order. *)
Inductive json : Type :=
  | JNull
  | JBool (b : bool)
  | JNum (n : Z)
  | JStr (s : string)
  | JArr (elems : list json)
  | JObj (props : list (string * json)).

(** ECMAScript [ToBoolean], the test behind [if (x)] and [x || y]. *)
Class ToBoolean (A : Type) := to_boolean : A → bool.

#[global] Instance string_to_boolean : ToBoolean string :=
  λ s, match s with EmptyString => false | String _ _ => true end.

#[global] Instance number_to_boolean : ToBoolean Z :=
  λ n, negb (n =? 0).

#[global] Instance json_to_boolean : ToBoolean json :=
  λ v, match v with
       | JNull => false
       | JBool b => b
       | JNum n => to_boolean n
       | JStr s => to_boolean s
       | JArr _ | JObj _ => true
       end.

(** [null] and [undefined] are falsy. *)
#[global] Instance option_to_boolean `{ToBoolean A} : ToBoolean (option A) :=
  λ o, match o with Some a => to_boolean a | None => false end.

(** [Number.prototype.toString()] and [`${n}`] on an integral number. *)
Definition Number_toString (n : Z) : string := pretty n.

Definition join (sep : string) (l : list string) : string :=
  match l with
  | [] => ""
  | s :: l => foldl (λ acc x, acc +:+ sep +:+ x) s l
  end.

(** ECMAScript [ToString], as [new Error(x)] applies it to its argument.
    An array prints as its elements joined by commas, with [null] elements
    printed empty. *)
Fixpoint ToString (v : json) : string :=
  match v with
  | JNull => "null"
  | JBool true => "true"
  | JBool false => "false"
  | JNum n => Number_toString n
  | JStr s => s
  | JArr elems =>
      join "," (map (λ e, match e with JNull => "" | _ => ToString e end) elems)
  | JObj _ => "[object Object]"
  end.

(** Own-property lookup on an object literal or a parsed object. *)
Fixpoint lookup_prop (k : string) (props : list (string * json)) : option json :=
  match props with
  | [] => None
  | (k', v) :: props => if String.eqb k k' then Some v else lookup_prop k props
  end.

(** What the engine throws, and what a rejected promise carries. *)
Inductive exn : Type :=
  | Error (message : string)   (* [new Error(message)] *)
  | TypeError                  (* property read on [null]; transport failure *)
  | SyntaxError.               (* body that is not JSON *)

(** The member expression [v.message] on a parsed body: [None] is
    [undefined]; reading a property of [null] throws.  Neither the
    primitive wrappers nor [Array.prototype] define [message]. *)
Definition get_message (v : json) : exn + option json :=
  match v with
  | JNull => inl TypeError
  | JObj props => inr (lookup_prop "message" props)
  | JBool _ | JNum _ | JStr _ | JArr _ => inr None
  end.

(** ** JSON.stringify *)

Definition hex_digit (n : N) : Ascii.ascii :=
  Ascii.ascii_of_N (if (n <? 10)%N then 48 + n else 87 + n)%N.

Definition HEX_digit (n : N) : Ascii.ascii :=
  Ascii.ascii_of_N (if (n <? 10)%N then 48 + n else 55 + n)%N.

(** One code unit of [QuoteJSONString]. *)
Definition quote_char (c : Ascii.ascii) : string :=
  let n := Ascii.N_of_ascii c in
  if (n =? 34)%N then "\" +:+ String c ""
  else if (n =? 92)%N then "\\"
  else if (n =? 8)%N then "\b"
  else if (n =? 9)%N then "\t"
  else if (n =? 10)%N then "\n"
  else if (n =? 12)%N then "\f"
  else if (n =? 13)%N then "\r"
  else if (n <? 32)%N then
    "\u00" +:+ String (hex_digit (n / 16)) (String (hex_digit (n mod 16)) "")
  else String c "".

Fixpoint quote_chars (s : string) : string :=
  match s with
  | EmptyString => ""
  | String c s => quote_char c +:+ quote_chars s
  end.

Definition QuoteJSONString (s : string) : string :=
  String.concat "" [ String (Ascii.ascii_of_N 34) ""; quote_chars s;
                     String (Ascii.ascii_of_N 34) "" ].

(** [JSON.stringify(v)] without indentation. *)
Fixpoint JSON_stringify (v : json) : string :=
  match v with
  | JNull => "null"
  | JBool true => "true"
  | JBool false => "false"
  | JNum n => Number_toString n
  | JStr s => QuoteJSONString s
  | JArr elems => "[" +:+ join "," (map JSON_stringify elems) +:+ "]"
  | JObj props =>
      "{" +:+ join "," (map (λ kv, QuoteJSONString kv.1 +:+ ":" +:+ JSON_stringify kv.2) props)
          +:+ "}"
  end.

(** ** URLSearchParams *)

Definition URLSearchParams : Type := list (string * string).

Definition URLSearchParams_append (name value : string) (sp : URLSearchParams)
  : URLSearchParams := (sp ++ [(name, value)])%list.

(** The application/x-www-form-urlencoded byte serialiser. *)
Definition urlencode_byte (c : Ascii.ascii) : string :=
  let n := Ascii.N_of_ascii c in
  if (n =? 32)%N then "+"
  else if ((n =? 42) || (n =? 45) || (n =? 46) || (n =? 95)
           || ((48 <=? n) && (n <=? 57))
           || ((65 <=? n) && (n <=? 90))
           || ((97 <=? n) && (n <=? 122)))%N
  then String c ""
  else "%" +:+ String (HEX_digit (n / 16)) (String (HEX_digit (n mod 16)) "").

Fixpoint urlencode (s : string) : string :=
  match s with
  | EmptyString => ""
  | String c s => urlencode_byte c +:+ urlencode s
  end.

(** [`${searchParams}`], that is [searchParams.toString()]. *)
Definition URLSearchParams_toString (sp : URLSearchParams) : string :=
  join "&" (map (λ nv, urlencode nv.1 +:+ "=" +:+ urlencode nv.2) sp).

(** ** The browser around the client *)

(** The init object handed to [fetch]; [method] and [body] are optional. *)
Record Request : Type := mkRequest {
  url : string;
  method : option string;
  headers : gmap string string;
  body : option string;
}.

(** A [Response] as the client reads it: [json_body] is what
    [response.json()] settles to, [None] when the body is empty or is not
    JSON and the promise rejects. *)
Record Response : Type := mkResponse {
  status : Z;
  statusText : string;
  json_body : option json;
}.

(** [response.ok]: the status is in the range 200-299 (Fetch standard). *)
Definition ok (response : Response) : bool :=
  (200 <=? status response) && (status response <=? 299).

Inductive log_entry : Type :=
  | console_log (args : list json)
  | console_error (args : list json).

(** What outlives a call: the durable key-value store, the console and the
    requests handed to the transport, oldest first. *)
Record World : Type := mkWorld {
  localStorage : gmap string string;
  console : list log_entry;
  network : list Request;
}.

(** The fields of an [ApiService] instance. *)
Record ApiService : Type := mkApiService {
  baseURL : string;
  token : option string;
}.

Record State : Type := mkState {
  this : ApiService;
  world : World;
}.

(** ** Computations

    A method body runs against the state and either returns (an [async]
    method: its promise fulfils) or throws (its promise rejects). *)
Inductive Completion (A : Type) : Type :=
  | Returns (a : A)
  | Throws (e : exn).
Arguments Returns {A} a.
Arguments Throws {A} e.

Definition JS (A : Type) : Type := State → Completion A * State.

#[global] Instance JS_ret : MRet JS := λ A a st, (Returns a, st).

#[global] Instance JS_bind : MBind JS := λ A B k m st,
  match m st with
  | (Returns a, st') => k a st'
  | (Throws e, st') => (Throws e, st')
  end.

Definition throw {A} (e : exn) : JS A := λ st, (Throws e, st).

(** [p.catch(handler)] for a handler that does not throw. *)
Definition catch {A} (m : JS A) (handler : exn → A) : JS A := λ st,
  match m st with
  | (Returns a, st') => (Returns a, st')
  | (Throws e, st') => (Returns (handler e), st')
  end.

Definition get_this : JS ApiService := λ st, (Returns (this st), st).

Definition set_this (o : ApiService) : JS unit := λ st,
  (Returns (), mkState o (world st)).

Definition set_baseURL (u : string) : JS unit :=
  o ← get_this; set_this (mkApiService u (token o)).

Definition set_token (t : option string) : JS unit :=
  o ← get_this; set_this (mkApiService (baseURL o) t).

Definition localStorage_getItem (k : string) : JS (option string) := λ st,
  (Returns (localStorage (world st) !! k), st).

Definition localStorage_setItem (k v : string) : JS unit := λ st,
  let w := world st in
  (Returns (), mkState (this st) (mkWorld (<[k := v]> (localStorage w)) (console w) (network w))).

Definition localStorage_removeItem (k : string) : JS unit := λ st,
  let w := world st in
  (Returns (), mkState (this st) (mkWorld (delete k (localStorage w)) (console w) (network w))).

Definition emit (e : log_entry) : JS unit := λ st,
  let w := world st in
  (Returns (), mkState (this st) (mkWorld (localStorage w) (console w ++ [e])%list (network w))).

(** [x || y] on a property that may be [undefined]. *)
Definition logical_or (x : option json) (y : json) : json :=
  match x with
  | Some v => if to_boolean v then v else y
  | None => y
  end.

(** The optional filters of [getProducts]; an absent property is [None]. *)
Record ProductParams : Type := mkProductParams {
  category : option string;
  search : option string;
  page : option Z;
  limit : option Z;
}.

Section ApiService.

(** [import.meta.env.VITE_API_URL], fixed at build time. *)
Variable VITE_API_URL : option string.

(** The transport behind [fetch]: the response to a request, or the reason
    the promise rejects. *)
Variable transport : Request → Completion Response.

Definition fetch (u : string) (m : option string) (h : gmap string string)
    (b : option string) : JS Response := λ st,
  let w := world st in
  let req := mkRequest u m h b in
  (transport req,
   mkState (this st) (mkWorld (localStorage w) (console w) (network w ++ [req])%list)).

(** [response.json()] *)
Definition Response_json (response : Response) : JS json :=
  match json_body response with
  | Some v => mret v
  | None => throw SyntaxError
  end.

Definition API_BASE_URL : string :=
  match VITE_API_URL with
  | Some u => if to_boolean u then u else "http://localhost:5000/api"
  | None => "http://localhost:5000/api"
  end.

(** The constructor body. *)
Definition constructor : JS unit :=
  set_baseURL API_BASE_URL;;
  t ← localStorage_getItem "auth_token";
  set_token t;;
  this ← get_this;
  emit (console_log [JStr "API Base URL:"; JStr (baseURL this)]).

(** [new ApiService()] in the world [w]: a fresh instance with [token]
    initialised to [null] and [baseURL] not yet assigned, then the
    constructor body. *)
Definition new_ApiService (w : World) : State :=
  (constructor (mkState (mkApiService "" None) w)).2.

Definition getHeaders : JS (gmap string string) :=
  this ← get_this;
  let headers : gmap string string := {[ "Content-Type" := "application/json" ]} in
  match token this with
  | Some t =>
      if to_boolean t
      then mret (<[ "Authorization" := "Bearer " +:+ t ]> headers)
      else mret headers
  | None => mret headers
  end.

Definition http_error (response : Response) : string :=
  "HTTP error! status: " +:+ Number_toString (status response).

Definition handleResponse (response : Response) : JS json :=
  emit (console_log [JStr ("API Response: " +:+ Number_toString (status response)
                             +:+ " " +:+ statusText response)]);;
  if negb (ok response) then
    error ← catch (Response_json response)
                  (λ _, JObj [("message", JStr (http_error response))]);
    emit (console_error [JStr "API Error:"; error]);;
    match get_message error with
    | inl e => throw e
    | inr message =>
        throw (Error (ToString (logical_or message (JStr (http_error response)))))
    end
  else Response_json response.

Definition setToken (token : option string) : JS unit :=
  set_token token;;
  match token with
  | Some t =>
      if to_boolean t
      then localStorage_setItem "auth_token" t
      else localStorage_removeItem "auth_token"
  | None => localStorage_removeItem "auth_token"
  end.

(** *** Auth endpoints

    [userData], [credentials] and [orderData] are the caller's objects as
    they are at run time; their declared shapes are
    [{email, password, first_name, last_name, phone?}],
    [{email, password}] and [{items, shipping_address}]. *)
Definition register (userData : json) : JS json :=
  this ← get_this;
  emit (console_log [JStr "Calling register API:";
                     JStr (baseURL this +:+ "/auth/register")]);;
  h ← getHeaders;
  response ← fetch (baseURL this +:+ "/auth/register") (Some "POST") h
                   (Some (JSON_stringify userData));
  handleResponse response.

Definition login (credentials : json) : JS json :=
  this ← get_this;
  emit (console_log [JStr "Calling login API:";
                     JStr (baseURL this +:+ "/auth/login")]);;
  h ← getHeaders;
  response ← fetch (baseURL this +:+ "/auth/login") (Some "POST") h
                   (Some (JSON_stringify credentials));
  handleResponse response.

Definition getCurrentUser : JS json :=
  this ← get_this;
  emit (console_log [JStr "Calling getCurrentUser API:";
                     JStr (baseURL this +:+ "/auth/me")]);;
  h ← getHeaders;
  response ← fetch (baseURL this +:+ "/auth/me") None h None;
  handleResponse response.

(** *** Products endpoints *)

(** The filters [getProducts] appends, in the order of its four tests;
    [params ≫= category] is [params?.category]. *)
Definition getProducts_searchParams (params : option ProductParams)
    : URLSearchParams :=
  let searchParams : URLSearchParams := [] in
  let searchParams :=
    match params ≫= category with
    | Some c =>
        if to_boolean c then URLSearchParams_append "category" c searchParams
        else searchParams
    | None => searchParams
    end in
  let searchParams :=
    match params ≫= search with
    | Some q =>
        if to_boolean q then URLSearchParams_append "search" q searchParams
        else searchParams
    | None => searchParams
    end in
  let searchParams :=
    match params ≫= page with
    | Some n =>
        if to_boolean n
        then URLSearchParams_append "page" (Number_toString n) searchParams
        else searchParams
    | None => searchParams
    end in
  match params ≫= limit with
  | Some n =>
      if to_boolean n
      then URLSearchParams_append "limit" (Number_toString n) searchParams
      else searchParams
  | None => searchParams
  end.

Definition getProducts (params : option ProductParams) : JS json :=
  this ← get_this;
  let searchParams := getProducts_searchParams params in
  let url := baseURL this +:+ "/products?" +:+ URLSearchParams_toString searchParams in
  emit (console_log [JStr "Calling getProducts API:"; JStr url]);;
  h ← getHeaders;
  response ← fetch url None h None;
  handleResponse response.

Definition getProduct (id : Z) : JS json :=
  this ← get_this;
  emit (console_log [JStr "Calling getProduct API:";
                     JStr (baseURL this +:+ "/products/" +:+ Number_toString id)]);;
  h ← getHeaders;
  response ← fetch (baseURL this +:+ "/products/" +:+ Number_toString id) None h None;
  handleResponse response.

(** *** Cart endpoints *)

Definition getCart : JS json :=
  this ← get_this;
  emit (console_log [JStr "Calling getCart API:"; JStr (baseURL this +:+ "/cart")]);;
  h ← getHeaders;
  response ← fetch (baseURL this +:+ "/cart") None h None;
  handleResponse response.

(** [quantity: number = 1]: an omitted argument takes the default. *)
Definition addToCart (productId : Z) (quantity : option Z) : JS json :=
  let quantity := default 1 quantity in
  this ← get_this;
  emit (console_log [JStr "Calling addToCart API:"; JStr (baseURL this +:+ "/cart")]);;
  h ← getHeaders;
  response ← fetch (baseURL this +:+ "/cart") (Some "POST") h
                   (Some (JSON_stringify (JObj [("product_id", JNum productId);
                                                ("quantity", JNum quantity)])));
  handleResponse response.

Definition updateCartItem (id quantity : Z) : JS json :=
  this ← get_this;
  emit (console_log [JStr "Calling updateCartItem API:";
                     JStr (baseURL this +:+ "/cart/" +:+ Number_toString id)]);;
  h ← getHeaders;
  response ← fetch (baseURL this +:+ "/cart/" +:+ Number_toString id) (Some "PUT") h
                   (Some (JSON_stringify (JObj [("quantity", JNum quantity)])));
  handleResponse response.

Definition removeFromCart (id : Z) : JS json :=
  this ← get_this;
  emit (console_log [JStr "Calling removeFromCart API:";
                     JStr (baseURL this +:+ "/cart/" +:+ Number_toString id)]);;
  h ← getHeaders;
  response ← fetch (baseURL this +:+ "/cart/" +:+ Number_toString id) (Some "DELETE") h None;
  handleResponse response.

Definition clearCart : JS json :=
  this ← get_this;
  emit (console_log [JStr "Calling clearCart API:"; JStr (baseURL this +:+ "/cart")]);;
  h ← getHeaders;
  response ← fetch (baseURL this +:+ "/cart") (Some "DELETE") h None;
  handleResponse response.

(** *** Wishlist endpoints *)

Definition getWishlist : JS json :=
  this ← get_this;
  emit (console_log [JStr "Calling getWishlist API:";
                     JStr (baseURL this +:+ "/wishlist")]);;
  h ← getHeaders;
  response ← fetch (baseURL this +:+ "/wishlist") None h None;
  handleResponse response.

Definition addToWishlist (productId : Z) : JS json :=
  this ← get_this;
  emit (console_log [JStr "Calling addToWishlist API:";
                     JStr (baseURL this +:+ "/wishlist")]);;
  h ← getHeaders;
  response ← fetch (baseURL this +:+ "/wishlist") (Some "POST") h
                   (Some (JSON_stringify (JObj [("product_id", JNum productId)])));
  handleResponse response.

Definition removeFromWishlistByProduct (productId : Z) : JS json :=
  this ← get_this;
  emit (console_log [JStr "Calling removeFromWishlistByProduct API:";
                     JStr (baseURL this +:+ "/wishlist/product/"
                             +:+ Number_toString productId)]);;
  h ← getHeaders;
  response ← fetch (baseURL this +:+ "/wishlist/product/" +:+ Number_toString productId)
                   (Some "DELETE") h None;
  handleResponse response.

(** *** Orders endpoints *)

Definition getOrders : JS json :=
  this ← get_this;
  emit (console_log [JStr "Calling getOrders API:"; JStr (baseURL this +:+ "/orders")]);;
  h ← getHeaders;
  response ← fetch (baseURL this +:+ "/orders") None h None;
  handleResponse response.

Definition createOrder (orderData : json) : JS json :=
  this ← get_this;
  emit (console_log [JStr "Calling createOrder API:"; JStr (baseURL this +:+ "/orders")]);;
  h ← getHeaders;
  response ← fetch (baseURL this +:+ "/orders") (Some "POST") h
                   (Some (JSON_stringify orderData));
  handleResponse response.

(** *** The method surface *)

(** One call of a resource method, with its arguments. *)
Inductive ResourceCall : Type :=
  | call_register (userData : json)
  | call_login (credentials : json)
  | call_getCurrentUser
  | call_getProducts (params : option ProductParams)
  | call_getProduct (id : Z)
  | call_getCart
  | call_addToCart (productId : Z) (quantity : option Z)
  | call_updateCartItem (id quantity : Z)
  | call_removeFromCart (id : Z)
  | call_clearCart
  | call_getWishlist
  | call_addToWishlist (productId : Z)
  | call_removeFromWishlistByProduct (productId : Z)
  | call_getOrders
  | call_createOrder (orderData : json).

Definition run_call (c : ResourceCall) : JS json :=
  match c with
  | call_register userData => register userData
  | call_login credentials => login credentials
  | call_getCurrentUser => getCurrentUser
  | call_getProducts params => getProducts params
  | call_getProduct id => getProduct id
  | call_getCart => getCart
  | call_addToCart productId quantity => addToCart productId quantity
  | call_updateCartItem id quantity => updateCartItem id quantity
  | call_removeFromCart id => removeFromCart id
  | call_clearCart => clearCart
  | call_getWishlist => getWishlist
  | call_addToWishlist productId => addToWishlist productId
  | call_removeFromWishlistByProduct productId => removeFromWishlistByProduct productId
  | call_getOrders => getOrders
  | call_createOrder orderData => createOrder orderData
  end.

(** A sequence of [setToken] calls, first to last. *)
Fixpoint run_setTokens (ts : list (option string)) : JS unit :=
  match ts with
  | [] => mret ()
  | t :: ts => setToken t;; run_setTokens ts
  end.

End ApiService.

(** ** Vocabulary of the statements *)

(** The part of the state the token lives in: the instance (with its
    in-memory token) and the durable store. *)
Definition keeps_session {A} (m : JS A) : Prop :=
  ∀ st, this (m st).2 = this st
        ∧ localStorage (world (m st).2) = localStorage (world st).

(** A page load with nothing stored, nothing logged, nothing sent. *)
Definition empty_world : World := mkWorld ∅ [] [].

(** The double quote, as a one-character string. *)
Definition dq : string := String (Ascii.ascii_of_N 34) "".

(** One filter of [getProducts]: present when the value is truthy. *)
Definition entry `{ToBoolean A} (name : string) (show : A → string) (o : option A)
  : URLSearchParams :=
  match o with
  | Some a => if to_boolean a then [(name, show a)] else []
  | None => []
  end.

(** ** Programs over a client *)

(** What application code does with a client once it is constructed: it
    changes the token or calls a resource method, catching whatever the
    call throws. *)
Inductive Op : Type :=
  | op_setToken (t : option string)
  | op_call (c : ResourceCall).

Definition run_op (transport : Request → Completion Response) (op : Op) (st : State)
  : State :=
  match op with
  | op_setToken t => (setToken t st).2
  | op_call c => (run_call transport c st).2
  end.

Definition run_ops (transport : Request → Completion Response) (ops : list Op)
    (st : State) : State :=
  foldl (λ st op, run_op transport op st) st ops.

(** The resource calls of a program, in order. *)
Definition calls (ops : list Op) : list ResourceCall :=
  omap (λ op, match op with op_call c => Some c | op_setToken _ => None end) ops.

(** The token as the header builder and the store see it: the empty string
    counts as no token. *)
Definition effective_token (t : option string) : option string :=
  match t with
  | Some (String _ _ as s) => Some s
  | _ => None
  end.

(** ** Characters of a query string *)

Fixpoint string_forall (P : Ascii.ascii → bool) (s : string) : bool :=
  match s with
  | EmptyString => true
  | String c s => P c && string_forall P s
  end.

Fixpoint count_char (c : Ascii.ascii) (s : string) : nat :=
  match s with
  | EmptyString => 0%nat
  | String c' s => ((if Ascii.eqb c c' then 1 else 0) + count_char c s)%nat
  end.

(** The characters the form-urlencoded serialiser emits for a name or a
    value: letters, digits, [*-._], [+] for a space and [%] escapes. *)
Definition urlencoded_char (c : Ascii.ascii) : bool :=
  let n := Ascii.N_of_ascii c in
  ((n =? 42) || (n =? 43) || (n =? 45) || (n =? 46) || (n =? 95) || (n =? 37)
   || ((48 <=? n) && (n <=? 57))
   || ((65 <=? n) && (n <=? 90))
   || ((97 <=? n) && (n <=? 122)))%N.

Definition ampersand : Ascii.ascii := Ascii.ascii_of_N 38.
Definition equals_sign : Ascii.ascii := Ascii.ascii_of_N 61.

(** The characters of a serialised query: those of the encoded names and
    values, and the two separators. *)
Definition query_char (c : Ascii.ascii) : bool :=
  urlencoded_char c || Ascii.eqb c ampersand || Ascii.eqb c equals_sign.

(** ** The database bootstrap (backend/config/database.js) *)

Record SslOptions : Type := mkSslOptions {
  rejectUnauthorized : bool;
}.

(** The object handed to [new Pool(...)].  [port] is the string found in
    the environment or the number 5432; [ssl] is [false] ([None]) or an
    options object. *)
Record PoolConfig : Type := mkPoolConfig {
  host : string;
  user : string;
  password : string;
  database : string;
  port : string + Z;
  ssl : option SslOptions;
}.

(** [process.env.NAME || fallback] at type string. *)
Definition env_or (value : option string) (fallback : string) : string :=
  match value with
  | Some s => if to_boolean s then s else fallback
  | None => fallback
  end.

(** The configuration of the pool, read off [process.env]. *)
Definition pool_config (env : gmap string string) : PoolConfig :=
  {| host := env_or (env !! "DB_HOST") "localhost";
     user := env_or (env !! "DB_USER") "postgres";
     password := env_or (env !! "DB_PASSWORD") "password";
     database := env_or (env !! "DB_NAME") "giftharmony_db";
     port := match env !! "DB_PORT" with
             | Some s => if to_boolean s then inl s else inr 5432
             | None => inr 5432
             end;
     ssl := if decide (env !! "NODE_ENV" = Some "production")
            then Some {| rejectUnauthorized := false |}
            else None |}.

(** * Properties *)

(** ** Running the primitives *)

Lemma bind_returns {A B} (m : JS A) (k : A → JS B) st a st' :
  m st = (Returns a, st') → (m ≫= k) st = k a st'.
Proof. intros E. unfold mbind, JS_bind. by rewrite E. Qed.

Lemma string_to_boolean_true (s : string) : to_boolean s = true ↔ s ≠ "".
Proof. destruct s; split; intros; done. Qed.

Lemma number_to_boolean_false (n : Z) : to_boolean n = false ↔ n = 0.
Proof.
  unfold to_boolean, number_to_boolean.
  destruct (Z.eqb_spec n 0); split; intros; simpl in *; done.
Qed.

Lemma append_empty_r (s : string) : s +:+ "" = s.
Proof. induction s as [|c s IH]; [done|]. by rewrite <- IH at 2. Qed.

Lemma Bearer_inj (a b : string) : "Bearer " +:+ a = "Bearer " +:+ b → a = b.
Proof. intros H. by simplify_eq/=. Qed.

(** ** The session token: what each operation leaves in place *)

Lemma keeps_ret {A} (a : A) : keeps_session (mret a).
Proof. done. Qed.

Lemma keeps_throw {A} (e : exn) : keeps_session (throw (A := A) e).
Proof. done. Qed.

Lemma keeps_bind {A B} (m : JS A) (k : A → JS B) :
  keeps_session m → (∀ a, keeps_session (k a)) → keeps_session (m ≫= k).
Proof.
  intros Hm Hk st. specialize (Hm st).
  unfold mbind, JS_bind. destruct (m st) as [[a|e] st']; simpl in *.
  - destruct (Hk a st') as [-> ->]. done.
  - done.
Qed.

Lemma keeps_catch {A} (m : JS A) (handler : exn → A) :
  keeps_session m → keeps_session (catch m handler).
Proof.
  intros Hm st. specialize (Hm st). unfold catch.
  by destruct (m st) as [[a|e] st'].
Qed.

Lemma keeps_get_this : keeps_session get_this.
Proof. done. Qed.

Lemma keeps_emit (e : log_entry) : keeps_session (emit e).
Proof. done. Qed.

Lemma keeps_fetch transport u m h b : keeps_session (fetch transport u m h b).
Proof. done. Qed.

Lemma keeps_Response_json response : keeps_session (Response_json response).
Proof. unfold Response_json. by destruct (json_body response). Qed.

Create HintDb session.
#[local] Hint Resolve keeps_ret keeps_throw keeps_catch keeps_get_this keeps_emit
  keeps_fetch keeps_Response_json : session.

(** Peel a method body bind by bind. *)
Ltac keeps :=
  repeat first
    [ apply keeps_bind; [ | intros ? ]
    | progress eauto with session
    | progress cbv beta zeta
    | match goal with
      | |- keeps_session (if ?b then _ else _) => destruct b
      | |- keeps_session (match ?x with _ => _ end) => destruct x
      end ].

Lemma keeps_getHeaders : keeps_session getHeaders.
Proof. unfold getHeaders. keeps. Qed.

Lemma keeps_handleResponse response : keeps_session (handleResponse response).
Proof. unfold handleResponse. keeps. Qed.

#[local] Hint Resolve keeps_getHeaders keeps_handleResponse : session.

Lemma keeps_run_call transport (c : ResourceCall) :
  keeps_session (run_call transport c).
Proof.
  destruct c; simpl;
    unfold register, login, getCurrentUser, getProducts, getProduct, getCart,
      addToCart, updateCartItem, removeFromCart, clearCart, getWishlist,
      addToWishlist, removeFromWishlistByProduct, getOrders, createOrder;
    keeps.
Qed.

(** ** What the core operations compute *)

Lemma getHeaders_run st :
  getHeaders st
  = (Returns (match token (this st) with
              | Some (String _ _ as t) =>
                  <[ "Authorization" := "Bearer " +:+ t ]>
                    {[ "Content-Type" := "application/json" ]}
              | _ => {[ "Content-Type" := "application/json" ]}
              end), st).
Proof. unfold getHeaders. by destruct st as [[u [[|c t]|]] w]. Qed.

Lemma setToken_run st t :
  setToken t st
  = (Returns (),
     mkState (mkApiService (baseURL (this st)) t)
       (mkWorld (match t with
                 | Some (String _ _ as s) => <[ "auth_token" := s ]> (localStorage (world st))
                 | _ => delete "auth_token" (localStorage (world st))
                 end)
                (console (world st)) (network (world st)))).
Proof. by destruct t as [[|c s]|]. Qed.

Lemma new_ApiService_token VITE_API_URL w :
  token (this (new_ApiService VITE_API_URL w)) = localStorage w !! "auth_token".
Proof. done. Qed.

Lemma run_setTokens_token ts st :
  (run_setTokens ts st).1 = Returns ()
  ∧ token (this (run_setTokens ts st).2) = default (token (this st)) (last ts).
Proof.
  revert st. induction ts as [|t ts IH]; intros st; [done|].
  simpl. erewrite bind_returns by apply setToken_run.
  destruct (IH (mkState (mkApiService (baseURL (this st)) t)
                  (mkWorld (match t with
                            | Some (String _ _ as s) =>
                                <[ "auth_token" := s ]> (localStorage (world st))
                            | _ => delete "auth_token" (localStorage (world st))
                            end)
                           (console (world st)) (network (world st)))))
    as [-> ->].
  split; [done|]. rewrite last_cons. by destruct (last ts).
Qed.

(** The outcome of [handleResponse] is a function of the response alone. *)
Lemma handleResponse_outcome response st :
  (handleResponse response st).1
  = if ok response
    then match json_body response with
         | Some v => Returns v
         | None => Throws SyntaxError
         end
    else match get_message (default (JObj [("message", JStr (http_error response))])
                                    (json_body response)) with
         | inl e => Throws e
         | inr message =>
             Throws (Error (ToString (logical_or message (JStr (http_error response)))))
         end.
Proof.
  unfold handleResponse, Response_json.
  destruct (ok response), (json_body response) as [v|]; try done.
  simpl. unfold mbind, JS_bind, catch, emit, mret, JS_ret. simpl.
  by destruct (get_message v).
Qed.

(** With a transport that answers every request with [r], a resource method
    ends in [handleResponse r]. *)
Lemma run_call_constant_transport r c st :
  ∃ st', run_call (λ _, Returns r) c st = handleResponse r st'.
Proof.
  destruct c; simpl;
    unfold register, login, getCurrentUser, getProducts, getProduct, getCart,
      addToCart, updateCartItem, removeFromCart, clearCart, getWishlist,
      addToWishlist, removeFromWishlistByProduct, getOrders, createOrder;
    (erewrite bind_returns by reflexivity);
    cbv zeta;
    (erewrite bind_returns by reflexivity);
    (erewrite bind_returns by apply getHeaders_run);
    (erewrite bind_returns by reflexivity);
    eexists; reflexivity.
Qed.


(** For a state whose instance holds [held], the header set [getHeaders]
    builds. *)
Lemma getHeaders_spec st :
  ∃ hs, getHeaders st = (Returns hs, st)
    ∧ hs !! "Content-Type" = Some "application/json"
    ∧ (∀ t, hs !! "Authorization" = Some ("Bearer " +:+ t)
            ↔ token (this st) = Some t ∧ t ≠ "")
    ∧ (hs !! "Authorization" = None
       ↔ token (this st) = None ∨ token (this st) = Some "").
Proof.
  eexists. split; [apply getHeaders_run|].
  pose proof (lookup_singleton_ne (M := gmap string) "Content-Type" "Authorization"
                "application/json") as Hna.
  destruct (token (this st)) as [[|c t]|].
  - rewrite Hna by done. rewrite lookup_singleton_eq.
    split; [done|]. split; [|naive_solver].
    intros t; split; [done|]. intros [? ?]. congruence.
  - rewrite lookup_insert_ne by done.
    rewrite lookup_singleton_eq, lookup_insert_eq.
    split; [done|]. split; [|intuition congruence].
    intros t'; split.
    + intros H.
      assert ("Bearer " +:+ String c t = "Bearer " +:+ t') as E by congruence.
      apply Bearer_inj in E as <-. done.
    + by intros [[= <-] _].
  - rewrite Hna by done. rewrite lookup_singleton_eq.
    split; [done|]. split; [|naive_solver].
    intros t; split; [done|]. by intros [? ?].
Qed.

(** ** Session token and headers *)

(** C1, as stated, fails: on a fresh client over an empty store the call
    [setToken("")] is the most recent one and passed a non-null token, yet
    the header set built next has no [Authorization] entry at all, so it
    does not include [Authorization: Bearer ] for that token. *)
Lemma setToken_empty_string_sends_no_Authorization :
  let st := (run_setTokens [Some ""] (new_ApiService None empty_world)).2 in
  last [Some ""] = Some (Some "")
  ∧ ∃ hs, getHeaders st = (Returns hs, st)
      ∧ hs !! "Authorization" = None
      ∧ hs !! "Authorization" ≠ Some ("Bearer " +:+ "").
Proof. split; [done|]. eexists. split; [apply getHeaders_run|]. done. Qed.

(** C1 (amended): after any sequence of [setToken] calls on a freshly
    constructed client, the header set carries [Content-Type:
    application/json], and carries [Authorization: Bearer t] exactly when
    the token held is the non-empty string [t], where the token held is
    the argument of the most recent call or, absent any call, the entry
    of [auth_token] in the store at construction.  When that token is
    [null] or the empty string there is no [Authorization] entry. *)
Theorem Authorization_iff_held_token_nonempty
    (VITE_API_URL : option string) (w : World) (ts : list (option string)) :
  let held := default (localStorage w !! "auth_token") (last ts) in
  let st := (run_setTokens ts (new_ApiService VITE_API_URL w)).2 in
  ∃ hs, getHeaders st = (Returns hs, st)
    ∧ hs !! "Content-Type" = Some "application/json"
    ∧ (∀ t, hs !! "Authorization" = Some ("Bearer " +:+ t) ↔ held = Some t ∧ t ≠ "")
    ∧ (hs !! "Authorization" = None ↔ held = None ∨ held = Some "").
Proof.
  intros held st.
  destruct (getHeaders_spec st) as (hs & Hrun & Hct & Hauth & Hnone).
  assert (token (this st) = held) as Hheld.
  { subst st held.
    destruct (run_setTokens_token ts (new_ApiService VITE_API_URL w)) as [_ ->].
    by rewrite new_ApiService_token. }
  rewrite Hheld in Hauth, Hnone. eauto.
Qed.

(** C3, as stated, fails: [setToken("")] passes a non-null token, yet the
    store, which held an older token under [auth_token], ends with no
    entry under that key instead of the entry [""]. *)
Lemma setToken_empty_string_is_not_written :
  let st := new_ApiService None (mkWorld {[ "auth_token" := "abc" ]} [] []) in
  let st' := (setToken (Some "") st).2 in
  localStorage (world st') !! "auth_token" = None
  ∧ localStorage (world st') !! "auth_token" ≠ Some "".
Proof. done. Qed.

(** C3 (amended): [setToken(t)] holds [t] in memory whatever [t] is; for a
    non-empty string [t] it writes [t] to the store under [auth_token]
    (leaving the other keys alone); for [null] it erases that key and
    clears the in-memory token, and a client constructed afterwards starts
    with no token. *)
Theorem setToken_writes_nonempty_erases_null
    (VITE_API_URL : option string) (st : State) (t : option string) :
  let st' := (setToken t st).2 in
  (setToken t st).1 = Returns ()
  ∧ token (this st') = t
  ∧ (∀ s, t = Some s → s ≠ "" →
       localStorage (world st') = <[ "auth_token" := s ]> (localStorage (world st))
       ∧ localStorage (world st') !! "auth_token" = Some s)
  ∧ (t = None →
       localStorage (world st') = delete "auth_token" (localStorage (world st))
       ∧ localStorage (world st') !! "auth_token" = None
       ∧ token (this st') = None
       ∧ token (this (new_ApiService VITE_API_URL (world st'))) = None).
Proof.
  intros st'. subst st'. rewrite setToken_run. simpl.
  split; [done|]. split; [done|]. split.
  - intros s -> Hs. destruct s; [done|]. by rewrite lookup_insert_eq.
  - intros ->. rewrite ?new_ApiService_token. simpl.
    by rewrite lookup_delete_eq.
Qed.

Lemma setToken_writes_nonempty_erases_null_witness :
  let st := new_ApiService None empty_world in
  localStorage (world (setToken (Some "abc") st).2) !! "auth_token" = Some "abc"
  ∧ token (this (new_ApiService None (world (setToken None st).2))) = None.
Proof.
  intros st. split.
  - apply (setToken_writes_nonempty_erases_null None st (Some "abc")); done.
  - apply (setToken_writes_nonempty_erases_null None st None); done.
Defined.

(** C8: [setToken("")] leaves the empty string in the in-memory token,
    removes the [auth_token] entry from the store rather than writing it,
    and the header set built afterwards has no [Authorization] entry. *)
Theorem setToken_empty_string_treated_like_null (st : State) :
  let st' := (setToken (Some "") st).2 in
  token (this st') = Some ""
  ∧ localStorage (world st') = delete "auth_token" (localStorage (world st))
  ∧ localStorage (world st') !! "auth_token" = None
  ∧ ∃ hs, getHeaders st' = (Returns hs, st') ∧ hs !! "Authorization" = None.
Proof.
  intros st'. subst st'. rewrite setToken_run. simpl.
  split; [done|]. split; [done|]. split; [by rewrite lookup_delete_eq|].
  eexists. split; [apply getHeaders_run|]. done.
Qed.

(** C10: header construction, response handling and every resource method,
    whatever its arguments, the transport's answer and the outcome, leave
    the instance (hence its in-memory token) and the whole store (hence
    the [auth_token] entry) as they found them. *)
Theorem pipeline_and_resource_methods_keep_token
    (transport : Request → Completion Response) (st : State) :
  (this (getHeaders st).2 = this st
   ∧ localStorage (world (getHeaders st).2) = localStorage (world st))
  ∧ (∀ response,
       this (handleResponse response st).2 = this st
       ∧ localStorage (world (handleResponse response st).2) = localStorage (world st))
  ∧ (∀ c : ResourceCall,
       let st' := (run_call transport c st).2 in
       token (this st') = token (this st)
       ∧ localStorage (world st') !! "auth_token" = localStorage (world st) !! "auth_token"
       ∧ this st' = this st
       ∧ localStorage (world st') = localStorage (world st)).
Proof.
  split; [apply keeps_getHeaders|]. split; [intros; apply keeps_handleResponse|].
  intros c st'. destruct (keeps_run_call transport c st) as [H1 H2].
  subst st'. by rewrite H1, H2.
Qed.

(** ** Response normalisation *)

Lemma logical_or_spec (x : option json) (y : json) :
  logical_or x y = if to_boolean x then default y x else y.
Proof. destruct x as [v|]; [|done]. simpl. unfold to_boolean at 2. simpl. done. Qed.

Lemma http_error_500 response :
  status response = 500 → http_error response = "HTTP error! status: 500".
Proof. unfold http_error. by intros ->. Qed.

(** What a failed response throws when its body is not JSON. *)
Lemma handleResponse_unparseable response st :
  ok response = false → json_body response = None →
  (handleResponse response st).1 = Throws (Error (http_error response)).
Proof. intros Hok Hbody. rewrite handleResponse_outcome, Hok, Hbody. done. Qed.

(** What a failed response throws when its body is JSON and not [null]. *)
Lemma handleResponse_parsed response st v message :
  ok response = false → json_body response = Some v → get_message v = inr message →
  (handleResponse response st).1
  = Throws (Error (ToString (logical_or message (JStr (http_error response))))).
Proof.
  intros Hok Hbody Hmsg. rewrite handleResponse_outcome, Hok, Hbody. simpl.
  by rewrite Hmsg.
Qed.

(** C2, as stated, fails: a status-500 response whose body is the JSON
    object [{}] parses, and still the message thrown is the fallback. *)
Lemma parsed_body_without_message_gets_fallback :
  let response := mkResponse 500 "Internal Server Error" (Some (JObj [])) in
  ok response = false
  ∧ json_body response = Some (JObj [])
  ∧ (handleResponse response (new_ApiService None empty_world)).1
    = Throws (Error "HTTP error! status: 500").
Proof. done. Qed.

(** C2 (amended): for a non-ok response whose body does not parse as
    JSON, the error thrown carries the fallback [HTTP error! status:
    <status>], and so does every resource method over a transport that
    answers with it; with status 500 that text is exactly [HTTP error!
    status: 500].  The converse does not hold: the fallback is the message
    exactly when the body does not parse, or parses to a value that is not
    [null] and whose [message] is absent, falsy, or itself prints as the
    fallback. *)
Theorem fallback_message_when_body_unparseable (response : Response) (st : State) :
  ok response = false →
  (json_body response = None →
     (handleResponse response st).1 = Throws (Error (http_error response))
     ∧ (∀ c, (run_call (λ _, Returns response) c st).1
             = Throws (Error (http_error response)))
     ∧ (status response = 500 → http_error response = "HTTP error! status: 500"))
  ∧ ((handleResponse response st).1 = Throws (Error (http_error response))
     ↔ json_body response = None
       ∨ ∃ v message, json_body response = Some v ∧ get_message v = inr message
           ∧ (to_boolean message = false
              ∨ ∃ x, message = Some x ∧ ToString x = http_error response)).
Proof.
  intros Hok. split.
  - intros Hbody. split; [by apply handleResponse_unparseable|].
    split; [|apply http_error_500].
    intros c. destruct (run_call_constant_transport response c st) as [st' ->].
    by apply handleResponse_unparseable.
  - destruct (json_body response) as [v|] eqn:Hbody.
    + destruct (get_message v) as [e|message] eqn:Hmsg.
      * rewrite handleResponse_outcome, Hok, Hbody. simpl. rewrite Hmsg.
        split; [intros [= ->]; by destruct v|].
        intros [?|(v' & m' & [= <-] & ? & _)]; congruence.
      * rewrite (handleResponse_parsed response st v message) by done.
        rewrite logical_or_spec. split.
        -- intros [= H]. right. exists v, message. split; [done|]. split; [done|].
           destruct (to_boolean message) eqn:Hb; [right|by left].
           destruct message as [x|]; [|done]. by exists x.
        -- intros [?|(v' & m' & [= <-] & Hm' & Hcase)]; [done|].
           assert (m' = message) as -> by congruence.
           destruct Hcase as [->|(x & -> & Hx)]; [done|].
           destruct (to_boolean (Some x)); simpl; by rewrite ?Hx.
    + split; [by left|]. intros _. by apply handleResponse_unparseable.
Qed.

Lemma fallback_message_when_body_unparseable_witness :
  let response := mkResponse 500 "Internal Server Error" None in
  let st := new_ApiService None empty_world in
  (handleResponse response st).1 = Throws (Error "HTTP error! status: 500")
  ∧ (run_call (λ _, Returns response) call_getOrders st).1
    = Throws (Error "HTTP error! status: 500").
Proof.
  intros response st.
  destruct (fallback_message_when_body_unparseable response st eq_refl) as [H _].
  destruct (H eq_refl) as (H1 & H2 & _).
  split; [exact H1 | exact (H2 call_getOrders)].
Defined.

(** C5, as stated, fails: a status-400 response whose JSON body carries
    the message field [""] does not make the call throw that message; the
    error carries the fallback text instead. *)
Lemma empty_server_message_is_replaced :
  let response := mkResponse 400 "Bad Request" (Some (JObj [("message", JStr "")])) in
  let st := new_ApiService None empty_world in
  ok response = false
  ∧ get_message (JObj [("message", JStr "")]) = inr (Some (JStr ""))
  ∧ (getProduct (λ _, Returns response) 999 st).1
    = Throws (Error "HTTP error! status: 400")
  ∧ (getProduct (λ _, Returns response) 999 st).1 ≠ Throws (Error "").
Proof. done. Qed.

(** C5 (amended): for a non-ok response whose body is a JSON object with a
    non-empty string under [message], response handling, and every
    resource method over a transport that answers with that response,
    throws one error whose message is exactly that string; so
    [getProduct(999)] over a 404 with body [{message: Not found}] throws
    [Not found]. *)
Theorem server_message_is_thrown
    (response : Response) (st : State) (props : list (string * json)) (m : string) :
  ok response = false →
  json_body response = Some (JObj props) →
  lookup_prop "message" props = Some (JStr m) →
  m ≠ "" →
  (handleResponse response st).1 = Throws (Error m)
  ∧ ∀ c, (run_call (λ _, Returns response) c st).1 = Throws (Error m).
Proof.
  intros Hok Hbody Hm Hne.
  assert (∀ st', (handleResponse response st').1 = Throws (Error m)) as H.
  { intros st'.
    rewrite (handleResponse_parsed response st' (JObj props) (Some (JStr m))); try done.
    - by destruct m.
    - simpl. by rewrite Hm. }
  split; [apply H|].
  intros c. destruct (run_call_constant_transport response c st) as [st' ->]. apply H.
Qed.

Lemma server_message_is_thrown_witness :
  let response := mkResponse 404 "Not Found" (Some (JObj [("message", JStr "Not found")])) in
  (getProduct (λ _, Returns response) 999 (new_ApiService None empty_world)).1
  = Throws (Error "Not found").
Proof.
  intros response.
  exact (proj2 (server_message_is_thrown response (new_ApiService None empty_world)
                  [("message", JStr "Not found")] "Not found"
                  eq_refl eq_refl eq_refl ltac:(discriminate))
               (call_getProduct 999)).
Defined.

(** C6: for an ok response whose body parses, response handling returns
    the parsed value itself, untouched, and so does every resource method
    over a transport that answers with that response; so [getProduct(1)]
    over a 200 with body [{id: 1, name: Mug}] fulfils with that object. *)
Theorem ok_body_is_returned_as_is (response : Response) (st : State) (v : json) :
  ok response = true →
  json_body response = Some v →
  (handleResponse response st).1 = Returns v
  ∧ ∀ c, (run_call (λ _, Returns response) c st).1 = Returns v.
Proof.
  intros Hok Hbody.
  assert (∀ st', (handleResponse response st').1 = Returns v) as H.
  { intros st'. by rewrite handleResponse_outcome, Hok, Hbody. }
  split; [apply H|].
  intros c. destruct (run_call_constant_transport response c st) as [st' ->]. apply H.
Qed.

Lemma ok_body_is_returned_as_is_witness :
  let response := mkResponse 200 "OK" (Some (JObj [("id", JNum 1); ("name", JStr "Mug")])) in
  (getProduct (λ _, Returns response) 1 (new_ApiService None empty_world)).1
  = Returns (JObj [("id", JNum 1); ("name", JStr "Mug")]).
Proof.
  intros response.
  exact (proj2 (ok_body_is_returned_as_is response (new_ApiService None empty_world)
                  (JObj [("id", JNum 1); ("name", JStr "Mug")]) eq_refl eq_refl)
               (call_getProduct 1)).
Defined.

(** ** Request construction *)

(** Response handling hands nothing to the transport. *)
Lemma handleResponse_network response st :
  network (world (handleResponse response st).2) = network (world st).
Proof.
  unfold handleResponse, Response_json.
  destruct (ok response), (json_body response) as [v|]; try done.
  simpl. unfold mbind, JS_bind, catch, emit, mret, JS_ret. simpl.
  by destruct (get_message v).
Qed.

(** What [addToCart] hands to the transport: one request. *)
Lemma addToCart_request transport productId quantity st :
  ∃ h, network (world (addToCart transport productId quantity st).2)
       = (network (world st)
          ++ [mkRequest (baseURL (this st) +:+ "/cart") (Some "POST") h
                (Some (JSON_stringify (JObj [("product_id", JNum productId);
                                             ("quantity", JNum (default 1 quantity))])))])%list.
Proof.
  unfold addToCart. cbv zeta.
  erewrite bind_returns by reflexivity.
  erewrite bind_returns by reflexivity.
  erewrite bind_returns by apply getHeaders_run.
  eexists. unfold fetch, mbind, JS_bind. simpl.
  destruct (transport _) as [r|e]; [|done].
  by rewrite handleResponse_network.
Qed.

(** C7: [addToCart(p)] with the quantity omitted hands the transport one
    POST request to [/cart] whose body is the JSON text of
    [{product_id: p, quantity: 1}], the very request [addToCart(p, 1)]
    sends; for [p = 5] the body reads [{"product_id":5,"quantity":1}]. *)
Theorem addToCart_quantity_defaults_to_1
    (transport : Request → Completion Response) (p : Z) (st : State) :
  (∃ req, network (world (addToCart transport p None st).2)
          = (network (world st) ++ [req])%list
     ∧ url req = baseURL (this st) +:+ "/cart"
     ∧ method req = Some "POST"
     ∧ body req = Some (JSON_stringify (JObj [("product_id", JNum p);
                                              ("quantity", JNum 1)])))
  ∧ addToCart transport p None st = addToCart transport p (Some 1) st
  ∧ JSON_stringify (JObj [("product_id", JNum 5); ("quantity", JNum 1)])
    = "{" +:+ dq +:+ "product_id" +:+ dq +:+ ":5,"
          +:+ dq +:+ "quantity" +:+ dq +:+ ":1}".
Proof.
  split; [|done].
  destruct (addToCart_request transport p None st) as [h ->].
  eexists. split; [done|]. done.
Qed.

Lemma getProducts_searchParams_entries (params : option ProductParams) :
  getProducts_searchParams params
  = (entry "category" id (params ≫= category)
     ++ entry "search" id (params ≫= search)
     ++ entry "page" Number_toString (params ≫= page)
     ++ entry "limit" Number_toString (params ≫= limit))%list.
Proof.
  unfold getProducts_searchParams, entry, URLSearchParams_append.
  destruct (params ≫= category) as [c|]; [destruct (to_boolean c)|];
    (destruct (params ≫= search) as [q|]; [destruct (to_boolean q)|]);
    (destruct (params ≫= page) as [n|]; [destruct (to_boolean n)|]);
    (destruct (params ≫= limit) as [l|]; [destruct (to_boolean l)|]);
    reflexivity.
Qed.

Lemma elem_of_entry `{ToBoolean A} (name : string) (show : A → string) (o : option A)
    (n v : string) :
  (n, v) ∈ entry name show o
  ↔ n = name ∧ ∃ a, o = Some a ∧ to_boolean a = true ∧ v = show a.
Proof.
  unfold entry. destruct o as [a|].
  - destruct (to_boolean a) eqn:Ha.
    + rewrite list_elem_of_singleton. split.
      * intros [= -> ->]. eauto.
      * intros (-> & a' & [= <-] & _ & ->). done.
    + split; [by intros ?%elem_of_nil|]. intros (_ & a' & [= <-] & ? & _). congruence.
  - split; [by intros ?%elem_of_nil|]. by intros (_ & a' & ? & _).
Qed.

(** The entries [getProducts] builds under a given name. *)
Lemma elem_of_getProducts_searchParams (params : option ProductParams) (n v : string) :
  (n, v) ∈ getProducts_searchParams params
  ↔ (n = "category" ∧ ∃ c, params ≫= category = Some c ∧ to_boolean c = true ∧ v = c)
    ∨ (n = "search" ∧ ∃ q, params ≫= search = Some q ∧ to_boolean q = true ∧ v = q)
    ∨ (n = "page" ∧ ∃ k, params ≫= page = Some k ∧ to_boolean k = true
                         ∧ v = Number_toString k)
    ∨ (n = "limit" ∧ ∃ k, params ≫= limit = Some k ∧ to_boolean k = true
                          ∧ v = Number_toString k).
Proof.
  rewrite getProducts_searchParams_entries.
  rewrite !elem_of_app, !elem_of_entry. done.
Qed.

(** What [getProducts] hands to the transport: one GET-by-default request
    whose URL ends in the serialised filters. *)
Lemma getProducts_request transport params st :
  ∃ h, network (world (getProducts transport params st).2)
       = (network (world st)
          ++ [mkRequest (baseURL (this st) +:+ "/products?"
                           +:+ URLSearchParams_toString (getProducts_searchParams params))
                None h None])%list.
Proof.
  unfold getProducts.
  erewrite bind_returns by reflexivity. cbv zeta.
  erewrite bind_returns by reflexivity.
  erewrite bind_returns by apply getHeaders_run.
  eexists. unfold fetch, mbind, JS_bind. simpl.
  destruct (transport _) as [r|e]; [|done].
  by rewrite handleResponse_network.
Qed.

(** C4: for [{page: 2, limit: 10}] the filters built are exactly
    [page=2] and [limit=10], none named [category] or [search], and the
    query string is [page=2&limit=10]; for [{}] and for no argument there
    are no filters and the query string is empty; these strings are what
    follows [/products?] in the URL requested.  Whatever the argument, an
    absent filter yields no entry: every entry comes from a filter that
    was supplied, with its own text or decimal form as value. *)
Theorem getProducts_query_string
    (transport : Request → Completion Response) (st : State) :
  let p := Some (mkProductParams None None (Some 2) (Some 10)) in
  let none := Some (mkProductParams None None None None) in
  (getProducts_searchParams p = [("page", "2"); ("limit", "10")]
   ∧ URLSearchParams_toString (getProducts_searchParams p) = "page=2&limit=10"
   ∧ (∀ v, ("category", v) ∉ getProducts_searchParams p)
   ∧ (∀ v, ("search", v) ∉ getProducts_searchParams p)
   ∧ ∃ h, network (world (getProducts transport p st).2)
          = (network (world st)
             ++ [mkRequest (baseURL (this st) +:+ "/products?page=2&limit=10")
                   None h None])%list)
  ∧ (getProducts_searchParams none = []
     ∧ getProducts_searchParams None = []
     ∧ URLSearchParams_toString (getProducts_searchParams none) = ""
     ∧ URLSearchParams_toString (getProducts_searchParams None) = ""
     ∧ (∃ h, network (world (getProducts transport none st).2)
             = (network (world st)
                ++ [mkRequest (baseURL (this st) +:+ "/products?") None h None])%list)
     ∧ (∃ h, network (world (getProducts transport None st).2)
             = (network (world st)
                ++ [mkRequest (baseURL (this st) +:+ "/products?") None h None])%list))
  ∧ (∀ params n v, (n, v) ∈ getProducts_searchParams params →
       (n = "category" ∧ params ≫= category = Some v)
       ∨ (n = "search" ∧ params ≫= search = Some v)
       ∨ (n = "page" ∧ ∃ k, params ≫= page = Some k ∧ v = Number_toString k)
       ∨ (n = "limit" ∧ ∃ k, params ≫= limit = Some k ∧ v = Number_toString k)).
Proof.
  intros p none. split; [|split].
  - split; [done|]. split; [done|].
    split; [|split]; [intros v Hv; by repeat (apply elem_of_cons in Hv as [?|Hv];
                     [done|]); apply elem_of_nil in Hv..|].
    destruct (getProducts_request transport p st) as [h ->]. by exists h.
  - split; [done|]. split; [done|]. split; [done|]. split; [done|]. split.
    + destruct (getProducts_request transport none st) as [h ->]. exists h.
      simpl. by rewrite append_empty_r.
    + destruct (getProducts_request transport None st) as [h ->]. exists h.
      simpl. by rewrite append_empty_r.
  - intros params n v Hin.
    apply elem_of_getProducts_searchParams in Hin
      as [(-> & c & ? & _ & ->)|[(-> & q & ? & _ & ->)
         |[(-> & k & ? & _ & ->)|(-> & k & ? & _ & ->)]]]; eauto 10.
Qed.

(** C9: a filter is sent exactly when its value is truthy, so a supplied
    but falsy value is dropped like an absent one: [page: 0], [limit: 0],
    [category: ""] and [search: ""] each produce no entry. *)
Theorem getProducts_omits_falsy_filters (params : option ProductParams) :
  let sp := getProducts_searchParams params in
  ((∀ v, ("category", v) ∈ sp ↔ params ≫= category = Some v ∧ v ≠ "")
   ∧ (∀ v, ("search", v) ∈ sp ↔ params ≫= search = Some v ∧ v ≠ "")
   ∧ (∀ v, ("page", v) ∈ sp
           ↔ ∃ k, params ≫= page = Some k ∧ k ≠ 0 ∧ v = Number_toString k)
   ∧ (∀ v, ("limit", v) ∈ sp
           ↔ ∃ k, params ≫= limit = Some k ∧ k ≠ 0 ∧ v = Number_toString k))
  ∧ getProducts_searchParams (Some (mkProductParams None None (Some 0) None)) = []
  ∧ getProducts_searchParams (Some (mkProductParams None None None (Some 0))) = []
  ∧ getProducts_searchParams (Some (mkProductParams (Some "") None None None)) = []
  ∧ getProducts_searchParams (Some (mkProductParams None (Some "") None None)) = [].
Proof.
  intros sp. split; [|done]. subst sp.
  assert (∀ k : Z, to_boolean k = true ↔ k ≠ 0) as Hnum.
  { intros k. pose proof (number_to_boolean_false k).
    destruct (to_boolean k); intuition congruence. }
  split; [|split; [|split]]; intros v; split.
  - intros Hin. apply elem_of_getProducts_searchParams in Hin
      as [(_ & c & ? & ?%string_to_boolean_true & ->)|[(? & _)|[(? & _)|(? & _)]]];
      done.
  - intros [Hc Hv]. apply elem_of_getProducts_searchParams. left.
    split; [done|]. exists v. by rewrite string_to_boolean_true.
  - intros Hin. apply elem_of_getProducts_searchParams in Hin
      as [(? & _)|[(_ & c & ? & ?%string_to_boolean_true & ->)|[(? & _)|(? & _)]]];
      done.
  - intros [Hc Hv]. apply elem_of_getProducts_searchParams. right; left.
    split; [done|]. exists v. by rewrite string_to_boolean_true.
  - intros Hin. apply elem_of_getProducts_searchParams in Hin
      as [(? & _)|[(? & _)|[(_ & k & ? & ?%Hnum & ->)|(? & _)]]]; try done.
    by exists k.
  - intros (k & Hk & Hne & ->). apply elem_of_getProducts_searchParams.
    right; right; left. split; [done|]. exists k. by rewrite Hnum.
  - intros Hin. apply elem_of_getProducts_searchParams in Hin
      as [(? & _)|[(? & _)|[(? & _)|(_ & k & ? & ?%Hnum & ->)]]]; try done.
    by exists k.
  - intros (k & Hk & Hne & ->). apply elem_of_getProducts_searchParams.
    right; right; right. split; [done|]. exists k. by rewrite Hnum.
Qed.

(** * Further properties of the client *)

(** ** One call, one request *)

(** Every resource method logs its call, builds its headers, hands one
    request under [baseURL] to the transport and leaves the rest to
    [handleResponse]; a request carries a body exactly when it is a POST or
    a PUT. *)
Lemma run_call_unfold transport (c : ResourceCall) st :
  ∃ (path line : string) (m : option string) (b : option string) (h : gmap string string),
    getHeaders st = (Returns h, st)
    ∧ (is_Some b ↔ m = Some "POST" ∨ m = Some "PUT")
    ∧ (m = None ∨ m = Some "POST" ∨ m = Some "PUT" ∨ m = Some "DELETE")
    ∧ run_call transport c st
      = match transport (mkRequest (baseURL (this st) +:+ "/" +:+ path) m h b) with
        | Returns r =>
            handleResponse r
              (mkState (this st)
                 (mkWorld (localStorage (world st))
                    (console (world st)
                     ++ [console_log [JStr line;
                                      JStr (baseURL (this st) +:+ "/" +:+ path)]])%list
                    (network (world st)
                     ++ [mkRequest (baseURL (this st) +:+ "/" +:+ path) m h b])%list))
        | Throws e =>
            (Throws e,
             mkState (this st)
               (mkWorld (localStorage (world st))
                  (console (world st)
                   ++ [console_log [JStr line;
                                    JStr (baseURL (this st) +:+ "/" +:+ path)]])%list
                  (network (world st)
                   ++ [mkRequest (baseURL (this st) +:+ "/" +:+ path) m h b])%list))
        end.
Proof.
  assert (∀ s : string, is_Some (Some s) ↔ Some "POST" = Some "POST" ∨ Some "POST" = Some "PUT")
    as Hpost by (intros; split; eauto).
  assert (∀ s : string, is_Some (Some s) ↔ Some "PUT" = Some "POST" ∨ Some "PUT" = Some "PUT")
    as Hput by (intros; split; eauto).
  assert (is_Some (@None string) ↔ @None string = Some "POST" ∨ @None string = Some "PUT")
    as Hget by (split; [by intros [? ?]|by intros [?|?]]).
  assert (is_Some (@None string) ↔ Some "DELETE" = Some "POST" ∨ Some "DELETE" = Some "PUT")
    as Hdel by (split; [by intros [? ?]|by intros [?|?]]).
  destruct c; simpl;
    unfold register, login, getCurrentUser, getProducts, getProduct, getCart,
      addToCart, updateCartItem, removeFromCart, clearCart, getWishlist,
      addToWishlist, removeFromWishlistByProduct, getOrders, createOrder;
    (erewrite bind_returns by reflexivity);
    cbv zeta;
    (erewrite bind_returns by reflexivity);
    (erewrite bind_returns by apply getHeaders_run);
    unfold fetch, mbind, JS_bind; cbv zeta.
  all: eexists _, _, _, _, _; split; [apply getHeaders_run|].
  all: split; [|split; [|reflexivity]]; eauto 6.
Qed.

Lemma run_call_network transport (c : ResourceCall) st :
  ∃ req, network (world (run_call transport c st).2) = (network (world st) ++ [req])%list.
Proof.
  destruct (run_call_unfold transport c st)
    as (path & line & m & b & h & _ & _ & _ & ->).
  eexists. destruct (transport _) as [r|e]; [|done]. by rewrite handleResponse_network.
Qed.

(** X1: whatever the transport answers, a resource method hands it exactly
    one request; the request's URL lies under [baseURL], and its headers
    are those [getHeaders] builds at the time of the call: [Content-Type:
    application/json], [Authorization: Bearer t] exactly when the token
    held is the non-empty [t], and no other header. *)
Theorem resource_call_sends_one_request
    (transport : Request → Completion Response) (c : ResourceCall) (st : State) :
  ∃ req,
    network (world (run_call transport c st).2) = (network (world st) ++ [req])%list
    ∧ (∃ path, url req = baseURL (this st) +:+ "/" +:+ path)
    ∧ (getHeaders st).1 = Returns (headers req)
    ∧ headers req !! "Content-Type" = Some "application/json"
    ∧ (∀ t, headers req !! "Authorization" = Some ("Bearer " +:+ t)
            ↔ token (this st) = Some t ∧ t ≠ "")
    ∧ (∀ k, is_Some (headers req !! k) → k = "Content-Type" ∨ k = "Authorization").
Proof.
  destruct (run_call_unfold transport c st)
    as (path & line & m & b & h & Hh & _ & _ & ->).
  exists (mkRequest (baseURL (this st) +:+ "/" +:+ path) m h b). split.
  { destruct (transport _) as [r|e]; [|done]. by rewrite handleResponse_network. }
  split; [by exists path|]. simpl. split; [by rewrite Hh|].
  destruct (getHeaders_spec st) as (h' & Hh' & Hct & Hauth & _).
  assert (h' = h) as -> by congruence.
  split; [done|]. split; [done|].
  intros k Hk. rewrite getHeaders_run in Hh. injection Hh as <-.
  destruct (decide (k = "Content-Type")) as [|Hk1]; [by left|].
  destruct (decide (k = "Authorization")) as [|Hk2]; [by right|].
  exfalso. destruct (token (this st)) as [[|a t]|].
  - rewrite lookup_singleton_ne in Hk by done. by destruct Hk.
  - rewrite lookup_insert_ne, lookup_singleton_ne in Hk by done. by destruct Hk.
  - rewrite lookup_singleton_ne in Hk by done. by destruct Hk.
Qed.

(** X2: the request a resource method sends has a body exactly when its
    method is POST or PUT; the reads, which leave the method to the
    transport's default, and the DELETEs send none, and no other method
    is ever used. *)
Theorem request_body_iff_POST_or_PUT
    (transport : Request → Completion Response) (c : ResourceCall) (st : State) :
  ∃ req,
    last (network (world (run_call transport c st).2)) = Some req
    ∧ (is_Some (body req) ↔ method req = Some "POST" ∨ method req = Some "PUT")
    ∧ (method req = None ∨ method req = Some "POST" ∨ method req = Some "PUT"
       ∨ method req = Some "DELETE").
Proof.
  destruct (run_call_unfold transport c st)
    as (path & line & m & b & h & _ & Hb & Hm & ->).
  exists (mkRequest (baseURL (this st) +:+ "/" +:+ path) m h b). split; [|done].
  destruct (transport _) as [r|e].
  - rewrite handleResponse_network. simpl. apply last_snoc.
  - simpl. apply last_snoc.
Qed.

(** X3: when the transport itself fails, the resource method rejects with
    the transport's reason, unchanged; response handling does not run, so
    the console gains the one line announcing the call and nothing else. *)
Theorem transport_failure_propagates (e : exn) (c : ResourceCall) (st : State) :
  let r := run_call (λ _, Throws e) c st in
  r.1 = Throws e
  ∧ ∃ args, console (world r.2) = (console (world st) ++ [console_log args])%list.
Proof.
  intros r. subst r.
  destruct (run_call_unfold (λ _, Throws e) c st)
    as (path & line & m & b & h & _ & _ & _ & ->).
  split; [done|]. by eexists.
Qed.

(** X4: over a transport that answers with a given response, a resource
    method fulfils exactly when the status is ok and the body parses, and
    then with the parsed body; a non-ok response always makes it
    reject. *)
Theorem call_fulfils_iff_ok_and_body_parses
    (response : Response) (c : ResourceCall) (st : State) :
  let out := (run_call (λ _, Returns response) c st).1 in
  (∀ v, out = Returns v ↔ ok response = true ∧ json_body response = Some v)
  ∧ (ok response = false ↔ ∃ e, out = Throws e ∧ e ≠ SyntaxError).
Proof.
  intros out. subst out.
  destruct (run_call_constant_transport response c st) as [st' ->].
  rewrite handleResponse_outcome.
  destruct (ok response), (json_body response) as [v|]; simpl.
  - split; [intros v'; split; [by intros [= ->]|by intros [_ [= ->]]]|].
    split; [done|]. by intros (e & ? & _).
  - split; [intros v'; split; [done|by intros [_ ?]]|].
    split; [done|]. intros (e & [= <-] & ?). done.
  - split; [intros v'; split; [by destruct (get_message v)|by intros [? _]]|].
    split; [intros _|done].
    destruct v; simpl; eexists; (split; [reflexivity|done]).
  - split; [intros v'; split; [done|by intros [? _]]|].
    split; [intros _|done]. eexists; (split; [reflexivity|done]).
Qed.


(** ** The text of a thrown error *)

Lemma pretty_N_go_nonempty (x : N) (s : string) : s ≠ "" → pretty_N_go x s ≠ "".
Proof.
  revert s. induction (N.lt_wf_0 x) as [x _ IH]; intros s Hs.
  destruct (decide (0 < x)%N) as [Hx|Hx].
  - rewrite pretty_N_go_step by done. apply IH; [|done].
    apply N.div_lt; lia.
  - assert (x = 0%N) as -> by lia. by rewrite pretty_N_go_0.
Qed.

Lemma pretty_N_nonempty (x : N) : pretty x ≠ "".
Proof.
  unfold pretty, pretty_N. destruct (decide (x = 0%N)) as [|Hx]; [done|].
  rewrite pretty_N_go_step by lia. by apply pretty_N_go_nonempty.
Qed.

Lemma Number_toString_nonempty (n : Z) : Number_toString n ≠ "".
Proof.
  unfold Number_toString, pretty, pretty_Z. destruct n as [|p|p]; [done| |done].
  apply pretty_N_nonempty.
Qed.

Lemma http_error_nonempty response : http_error response ≠ "".
Proof. done. Qed.

Lemma ToString_truthy_nonempty (x : json) :
  to_boolean x = true → (∀ elems, x ≠ JArr elems) → ToString x ≠ "".
Proof.
  intros Hx Harr. destruct x as [|[]|n|s|elems|props]; try done.
  - apply Number_toString_nonempty.
  - by destruct s.
  - by destruct (Harr elems).
Qed.

(** X6: unless the server's [message] is an array, the error thrown on a
    failed response never has an empty message: a message that is absent
    or falsy is replaced by the status fallback, and a truthy string,
    number, boolean or object prints as a non-empty text.  (An empty array
    is truthy and prints as the empty text.) *)
Theorem thrown_message_is_never_empty (response : Response) (st : State) (m : string) :
  (∀ props elems, json_body response = Some (JObj props) →
                  lookup_prop "message" props ≠ Some (JArr elems)) →
  (handleResponse response st).1 = Throws (Error m) →
  m ≠ "".
Proof.
  intros Harr. rewrite handleResponse_outcome.
  destruct (ok response); [by destruct (json_body response)|].
  destruct (json_body response) as [v|]; simpl.
  - destruct (get_message v) as [e|message] eqn:Hmsg;
      [intros [= ->]; by destruct v|].
    intros [= <-]. rewrite logical_or_spec.
    destruct (to_boolean message) eqn:Hb; [|apply http_error_nonempty].
    destruct message as [x|]; [|done]. simpl.
    apply ToString_truthy_nonempty; [done|].
    intros elems ->. destruct v; try done. simpl in Hmsg.
    injection Hmsg as Hmsg. by apply (Harr props elems).
  - intros [= <-]. apply http_error_nonempty.
Qed.

Lemma thrown_message_is_never_empty_witness :
  let response := mkResponse 404 "Not Found" (Some (JObj [("message", JNum 42)])) in
  (handleResponse response (new_ApiService None empty_world)).1 = Throws (Error "42")
  ∧ "42" ≠ "".
Proof.
  intros response. split; [reflexivity|].
  apply (thrown_message_is_never_empty response (new_ApiService None empty_world) "42").
  - intros props elems [= <-]. discriminate.
  - reflexivity.
Defined.

(** ** Programs: what holds however the client is used *)

(** X7: of two [setToken] calls in a row only the second leaves a trace:
    memory, store, console and network end as if the first had not been
    made. *)
Theorem setToken_last_write_wins (t1 t2 : option string) (st : State) :
  (setToken t1 ;; setToken t2) st = setToken t2 st.
Proof.
  erewrite bind_returns by apply setToken_run.
  rewrite !setToken_run. simpl. do 3 f_equal.
  destruct t1 as [[|a1 s1]|], t2 as [[|a2 s2]|];
    by rewrite ?insert_insert_eq, ?insert_delete_eq, ?delete_insert_eq, ?delete_delete_eq.
Qed.

Lemma getHeaders_effective_token st st' :
  effective_token (token (this st)) = effective_token (token (this st')) →
  (getHeaders st).1 = (getHeaders st').1.
Proof.
  rewrite !getHeaders_run. simpl.
  destruct (token (this st)) as [[|a t]|], (token (this st')) as [[|a' t']|];
    simpl; intros H; by simplify_eq.
Qed.

(** What one step of a program does to the instance, the store and the
    network. *)
Lemma run_op_effect transport (op : Op) (st : State) :
  baseURL (this (run_op transport op st)) = baseURL (this st)
  ∧ delete "auth_token" (localStorage (world (run_op transport op st)))
    = delete "auth_token" (localStorage (world st))
  ∧ (effective_token (token (this st))
     = effective_token (localStorage (world st) !! "auth_token") →
     effective_token (token (this (run_op transport op st)))
     = effective_token (localStorage (world (run_op transport op st)) !! "auth_token"))
  ∧ (localStorage (world st) !! "auth_token" ≠ Some "" →
     localStorage (world (run_op transport op st)) !! "auth_token" ≠ Some "")
  ∧ network (world (run_op transport op st))
    = (network (world st)
       ++ match op with
          | op_call c => drop (length (network (world st)))
                           (network (world (run_call transport c st).2))
          | op_setToken _ => []
          end)%list
  ∧ length (network (world (run_op transport op st)))
    = (length (network (world st)) + length (calls [op]))%nat.
Proof.
  destruct op as [t|c]; simpl.
  - rewrite setToken_run. simpl. rewrite app_nil_r.
    split; [done|]. split.
    { destruct t as [[|a s]|]; by rewrite ?delete_insert_eq, ?delete_delete_eq. }
    split.
    { intros _. destruct t as [[|a s]|];
        by rewrite ?lookup_insert_eq, ?lookup_delete_eq. }
    split; [|split; [done|lia]].
    intros _. destruct t as [[|a s]|];
      by rewrite ?lookup_insert_eq, ?lookup_delete_eq.
  - destruct (keeps_run_call transport c st) as [Hthis Hstore].
    rewrite Hthis, Hstore.
    destruct (run_call_network transport c st) as [req ->].
    rewrite drop_app_length, length_app. simpl. done.
Qed.

Lemma run_ops_cons transport (op : Op) (ops : list Op) (st : State) :
  run_ops transport (op :: ops) st = run_ops transport ops (run_op transport op st).
Proof. done. Qed.

Lemma calls_cons (op : Op) (ops : list Op) :
  length (calls (op :: ops)) = (length (calls [op]) + length (calls ops))%nat.
Proof. by destruct op. Qed.

(** What a whole program does to the instance, the store and the
    network. *)
Lemma run_ops_effect transport (ops : list Op) (st : State) :
  let st' := run_ops transport ops st in
  baseURL (this st') = baseURL (this st)
  ∧ delete "auth_token" (localStorage (world st'))
    = delete "auth_token" (localStorage (world st))
  ∧ (effective_token (token (this st))
     = effective_token (localStorage (world st) !! "auth_token") →
     effective_token (token (this st'))
     = effective_token (localStorage (world st') !! "auth_token"))
  ∧ (localStorage (world st) !! "auth_token" ≠ Some "" →
     localStorage (world st') !! "auth_token" ≠ Some "")
  ∧ ∃ reqs, network (world st') = (network (world st) ++ reqs)%list
            ∧ length reqs = length (calls ops).
Proof.
  revert st. induction ops as [|op ops IH]; intros st st'.
  - subst st'. simpl. repeat split; try done. exists []. by rewrite app_nil_r.
  - subst st'. rewrite run_ops_cons.
    destruct (run_op_effect transport op st) as (H1 & H2 & H3 & H4 & H5 & H6).
    destruct (IH (run_op transport op st)) as (I1 & I2 & I3 & I4 & reqs & I5 & I6).
    split; [congruence|]. split; [congruence|]. split; [tauto|]. split; [tauto|].
    rewrite I5, H5. eexists. rewrite <- (assoc_L (++)). split; [done|].
    rewrite length_app, I6, calls_cons. f_equal.
    rewrite H5, length_app in H6. lia.
Qed.

Lemma new_ApiService_effect VITE_API_URL w :
  baseURL (this (new_ApiService VITE_API_URL w)) = API_BASE_URL VITE_API_URL
  ∧ world (new_ApiService VITE_API_URL w)
    = mkWorld (localStorage w)
        (console w ++ [console_log [JStr "API Base URL:";
                                    JStr (API_BASE_URL VITE_API_URL)]])%list
        (network w).
Proof. done. Qed.

(** X8: a session survives a reload.  After any program of token changes
    and resource calls, a client constructed anew over the store as it
    stands builds the same headers as the client that ran the program. *)
Theorem reload_builds_same_headers
    (VITE_API_URL VITE_API_URL' : option string)
    (transport : Request → Completion Response) (w : World) (ops : list Op) :
  let st := run_ops transport ops (new_ApiService VITE_API_URL w) in
  (getHeaders (new_ApiService VITE_API_URL' (world st))).1 = (getHeaders st).1.
Proof.
  intros st. apply getHeaders_effective_token.
  rewrite new_ApiService_token. symmetry.
  destruct (run_ops_effect transport ops (new_ApiService VITE_API_URL w))
    as (_ & _ & Hsync & _).
  apply Hsync. by rewrite new_ApiService_token.
Qed.

(** X9: the base URL is fixed at construction and never empty: throughout
    any program it is the configured [VITE_API_URL] when that is a
    non-empty string, and the local default otherwise. *)
Theorem baseURL_fixed_at_construction
    (VITE_API_URL : option string)
    (transport : Request → Completion Response) (w : World) (ops : list Op) :
  let st := run_ops transport ops (new_ApiService VITE_API_URL w) in
  baseURL (this st)
  = default "http://localhost:5000/api" (effective_token VITE_API_URL)
  ∧ baseURL (this st) ≠ "".
Proof.
  intros st.
  destruct (run_ops_effect transport ops (new_ApiService VITE_API_URL w)) as (H & _).
  subst st. rewrite H.
  destruct (new_ApiService_effect VITE_API_URL w) as [-> _].
  by destruct VITE_API_URL as [[|a u]|].
Qed.

(** X10: a program sends one request per resource call, no more and no
    fewer, after those already sent: token changes and failed calls
    neither add nor drop requests. *)
Theorem program_sends_one_request_per_call
    (VITE_API_URL : option string)
    (transport : Request → Completion Response) (w : World) (ops : list Op) :
  let st := run_ops transport ops (new_ApiService VITE_API_URL w) in
  ∃ reqs, network (world st) = (network w ++ reqs)%list
          ∧ length reqs = length (calls ops).
Proof.
  intros st.
  destruct (run_ops_effect transport ops (new_ApiService VITE_API_URL w))
    as (_ & _ & _ & _ & reqs & H & Hlen).
  exists reqs. subst st. rewrite H.
  by destruct (new_ApiService_effect VITE_API_URL w) as [_ ->].
Qed.

(** X11: the client owns one key of the store.  Construction and any
    program leave every entry other than [auth_token] as it was. *)
Theorem program_touches_only_auth_token
    (VITE_API_URL : option string)
    (transport : Request → Completion Response) (w : World) (ops : list Op) :
  let st := run_ops transport ops (new_ApiService VITE_API_URL w) in
  delete "auth_token" (localStorage (world st)) = delete "auth_token" (localStorage w)
  ∧ ∀ k, k ≠ "auth_token" → localStorage (world st) !! k = localStorage w !! k.
Proof.
  intros st.
  destruct (run_ops_effect transport ops (new_ApiService VITE_API_URL w))
    as (_ & H & _).
  assert (delete "auth_token" (localStorage (world st))
          = delete "auth_token" (localStorage w)) as Hdel.
  { subst st. rewrite H.
    by destruct (new_ApiService_effect VITE_API_URL w) as [_ ->]. }
  split; [done|]. intros k Hk.
  rewrite <- (lookup_delete_ne (localStorage (world st)) "auth_token" k) by done.
  rewrite Hdel. by apply lookup_delete_ne.
Qed.

(** X12: store and memory stay in step.  If the store does not hold the
    empty string under [auth_token] when the client is constructed, then
    after any program the entry is exactly the token held in memory when
    that is a non-empty string, and is absent otherwise; the client never
    stores an empty token. *)
Theorem store_mirrors_held_token
    (VITE_API_URL : option string)
    (transport : Request → Completion Response) (w : World) (ops : list Op) :
  localStorage w !! "auth_token" ≠ Some "" →
  let st := run_ops transport ops (new_ApiService VITE_API_URL w) in
  localStorage (world st) !! "auth_token" = effective_token (token (this st))
  ∧ localStorage (world st) !! "auth_token" ≠ Some "".
Proof.
  intros Hw st.
  destruct (run_ops_effect transport ops (new_ApiService VITE_API_URL w))
    as (_ & _ & Hsync & Hne & _).
  fold st in Hsync, Hne.
  assert (localStorage (world st) !! "auth_token" ≠ Some "") as Hst.
  { apply Hne. by destruct (new_ApiService_effect VITE_API_URL w) as [_ ->]. }
  split; [|done]. rewrite Hsync by (by rewrite new_ApiService_token).
  by destruct (localStorage (world st) !! "auth_token") as [[|a s]|].
Qed.

Lemma store_mirrors_held_token_witness :
  let st := run_ops (λ _, Throws TypeError)
              [op_setToken (Some "abc"); op_call call_getCart; op_setToken (Some "")]
              (new_ApiService None empty_world) in
  localStorage (world st) !! "auth_token" = effective_token (token (this st))
  ∧ localStorage (world st) !! "auth_token" ≠ Some "".
Proof.
  apply (store_mirrors_held_token None (λ _, Throws TypeError) empty_world
           [op_setToken (Some "abc"); op_call call_getCart; op_setToken (Some "")]).
  done.
Defined.

(** ** The query string of [getProducts] *)

(** X13: [getProducts] sends its filters in one fixed order, category,
    search, page, limit, each at most once: the names in the query are a
    sublist of those four, so there are at most four and none repeats. *)
Theorem getProducts_filters_in_fixed_order (params : option ProductParams) :
  let names := (getProducts_searchParams params).*1 in
  names `sublist_of` ["category"; "search"; "page"; "limit"]
  ∧ NoDup names
  ∧ (length names ≤ 4)%nat.
Proof.
  intros names. subst names. rewrite getProducts_searchParams_entries. unfold entry.
  destruct (params ≫= category) as [c|]; [destruct (to_boolean c)|];
    (destruct (params ≫= search) as [q|]; [destruct (to_boolean q)|]);
    (destruct (params ≫= page) as [n|]; [destruct (to_boolean n)|]);
    (destruct (params ≫= limit) as [l|]; [destruct (to_boolean l)|]);
    simpl;
    (split; [repeat first [apply sublist_nil | apply sublist_skip | apply sublist_cons]
            |split; [by apply (bool_decide_unpack _)|lia]]).
Qed.

Lemma string_forall_app P (a b : string) :
  string_forall P (a +:+ b) = string_forall P a && string_forall P b.
Proof.
  induction a as [|c a IH]; [done|].
  change (String c a +:+ b) with (String c (a +:+ b)). simpl.
  by rewrite IH, andb_assoc.
Qed.

Lemma count_char_app c (a b : string) :
  count_char c (a +:+ b) = (count_char c a + count_char c b)%nat.
Proof.
  induction a as [|c' a IH]; [done|].
  change (String c' a +:+ b) with (String c' (a +:+ b)). simpl. rewrite IH. lia.
Qed.

Lemma count_char_forall P c (s : string) :
  P c = false → string_forall P s = true → count_char c s = 0%nat.
Proof.
  intros Hc. induction s as [|c' s IH]; [done|]. simpl.
  intros [Hc' Hs]%andb_true_iff. rewrite IH by done.
  destruct (Ascii.eqb_spec c c') as [->|]; [congruence|done].
Qed.

Lemma urlencode_byte_chars c : string_forall urlencoded_char (urlencode_byte c) = true.
Proof. destruct c as [[] [] [] [] [] [] [] []]; reflexivity. Qed.

Lemma urlencode_chars (s : string) : string_forall urlencoded_char (urlencode s) = true.
Proof.
  induction s as [|c s IH]; [done|]. simpl.
  by rewrite string_forall_app, urlencode_byte_chars, IH.
Qed.

Lemma string_forall_impl (P Q : Ascii.ascii → bool) (s : string) :
  (∀ c, P c = true → Q c = true) → string_forall P s = true → string_forall Q s = true.
Proof.
  intros HPQ. induction s as [|c s IH]; [done|]. simpl.
  intros [Hc Hs]%andb_true_iff. by rewrite (HPQ c Hc), IH.
Qed.

(** One serialised entry: safe characters around a single equals sign. *)
Lemma query_entry_chars (n v : string) :
  let e := urlencode n +:+ "=" +:+ urlencode v in
  string_forall query_char e = true
  ∧ count_char equals_sign e = 1%nat
  ∧ count_char ampersand e = 0%nat.
Proof.
  intros e. subst e.
  assert (∀ s, string_forall query_char (urlencode s) = true) as Hq.
  { intros s. apply (string_forall_impl urlencoded_char); [|apply urlencode_chars].
    intros c Hc. unfold query_char. by rewrite Hc. }
  rewrite !string_forall_app, !count_char_app, !Hq.
  assert (∀ c s, urlencoded_char c = false → count_char c (urlencode s) = 0%nat) as Hc.
  { intros c s Hc. apply (count_char_forall urlencoded_char); [done|apply urlencode_chars]. }
  rewrite !(Hc equals_sign), !(Hc ampersand) by done.
  done.
Qed.

Lemma join_entries_chars (a : string) (pieces : list string) :
  string_forall query_char a = true →
  Forall (λ e, string_forall query_char e = true
               ∧ count_char equals_sign e = 1%nat
               ∧ count_char ampersand e = 0%nat) pieces →
  let qs := foldl (λ acc x, acc +:+ "&" +:+ x) a pieces in
  string_forall query_char qs = true
  ∧ count_char equals_sign qs = (count_char equals_sign a + length pieces)%nat
  ∧ count_char ampersand qs = (count_char ampersand a + length pieces)%nat.
Proof.
  intros Ha Hp. revert a Ha.
  induction Hp as [|e pieces (He1 & He2 & He3) _ IH]; intros a Ha qs.
  - subst qs. simpl. split; [done|]. split; lia.
  - subst qs. simpl.
    destruct (IH (a +:+ "&" +:+ e)) as (I1 & I2 & I3).
    { rewrite !string_forall_app, Ha, He1. done. }
    split; [done|]. rewrite I2, I3, !count_char_app, He2, He3. simpl.
    split; lia.
Qed.

Lemma URLSearchParams_toString_chars (sp : URLSearchParams) :
  let qs := URLSearchParams_toString sp in
  string_forall query_char qs = true
  ∧ count_char equals_sign qs = length sp
  ∧ count_char ampersand qs = pred (length sp).
Proof.
  intros qs. subst qs. unfold URLSearchParams_toString.
  destruct sp as [|[n v] sp]; [done|]. simpl map. unfold join.
  destruct (query_entry_chars n v) as (H1 & H2 & H3).
  destruct (join_entries_chars (urlencode n +:+ "=" +:+ urlencode v)
              (map (λ nv, urlencode nv.1 +:+ "=" +:+ urlencode nv.2) sp))
    as (J1 & J2 & J3); [done| |].
  { apply Forall_map, Forall_forall. intros [n' v'] _. apply query_entry_chars. }
  split; [done|]. rewrite J2, J3, H2, H3, length_map. simpl. split; lia.
Qed.

(** X14: whatever text the caller passes as category or search, the query
    string [getProducts] builds consists of encoded characters and
    separators only, with exactly one [=] per filter sent and one [&]
    between consecutive filters: a value cannot add, split or end a
    parameter. *)
Theorem getProducts_query_string_is_well_formed (params : option ProductParams) :
  let sp := getProducts_searchParams params in
  let qs := URLSearchParams_toString sp in
  string_forall query_char qs = true
  ∧ count_char equals_sign qs = length sp
  ∧ count_char ampersand qs = pred (length sp).
Proof. apply URLSearchParams_toString_chars. Qed.

(** ** Resources addressed by id *)




(** ** The database pool configuration *)

Lemma env_or_nonempty (value : option string) (fallback : string) :
  fallback ≠ "" → env_or value fallback ≠ "".
Proof. intros Hf. by destruct value as [[|a s]|]. Qed.

(** X16: the pool is configured with usable values whatever the
    environment holds: host, user, password and database name are never
    empty (an unset or empty variable gives the default), the port is the
    number 5432 unless [DB_PORT] is a non-empty string, which is then
    passed on as it is, and TLS is switched on, without certificate
    verification, exactly when [NODE_ENV] is the string [production]. *)
Theorem pool_config_is_always_usable (env : gmap string string) :
  let cfg := pool_config env in
  (host cfg ≠ "" ∧ user cfg ≠ "" ∧ password cfg ≠ "" ∧ database cfg ≠ "")
  ∧ (host cfg = default "localhost" (effective_token (env !! "DB_HOST"))
     ∧ user cfg = default "postgres" (effective_token (env !! "DB_USER"))
     ∧ password cfg = default "password" (effective_token (env !! "DB_PASSWORD"))
     ∧ database cfg = default "giftharmony_db" (effective_token (env !! "DB_NAME")))
  ∧ port cfg = from_option inl (inr 5432) (effective_token (env !! "DB_PORT"))
  ∧ port cfg ≠ inl ""
  ∧ (ssl cfg = Some (mkSslOptions false) ↔ env !! "NODE_ENV" = Some "production")
  ∧ (ssl cfg = None ↔ env !! "NODE_ENV" ≠ Some "production").
Proof.
  intros cfg. subst cfg. unfold pool_config. simpl.
  split; [repeat split; by apply env_or_nonempty|].
  split.
  { repeat split; unfold env_or;
      match goal with |- context [env !! ?k] => by destruct (env !! k) as [[|a s]|] end. }
  split; [by destruct (env !! "DB_PORT") as [[|a s]|]|].
  split; [by destruct (env !! "DB_PORT") as [[|a s]|]|].
  destruct (decide (env !! "NODE_ENV" = Some "production")); split; split; done.
Qed.

(** ** The token stays out of the console *)

(** The shape of a resource method does not depend on the state it runs
    in: its path, the line it logs, its method and its body are fixed by
    the call. *)
Lemma run_call_shape transport (c : ResourceCall) :
  ∃ (path line : string) (m : option string) (b : option string),
    ∀ st, ∃ h,
      run_call transport c st
      = match transport (mkRequest (baseURL (this st) +:+ "/" +:+ path) m h b) with
        | Returns r =>
            handleResponse r
              (mkState (this st)
                 (mkWorld (localStorage (world st))
                    (console (world st)
                     ++ [console_log [JStr line;
                                      JStr (baseURL (this st) +:+ "/" +:+ path)]])%list
                    (network (world st)
                     ++ [mkRequest (baseURL (this st) +:+ "/" +:+ path) m h b])%list))
        | Throws e =>
            (Throws e,
             mkState (this st)
               (mkWorld (localStorage (world st))
                  (console (world st)
                   ++ [console_log [JStr line;
                                    JStr (baseURL (this st) +:+ "/" +:+ path)]])%list
                  (network (world st)
                   ++ [mkRequest (baseURL (this st) +:+ "/" +:+ path) m h b])%list))
        end.
Proof.
  destruct c; simpl;
    unfold register, login, getCurrentUser, getProducts, getProduct, getCart,
      addToCart, updateCartItem, removeFromCart, clearCart, getWishlist,
      addToWishlist, removeFromWishlistByProduct, getOrders, createOrder.
  all: eexists _, _, _, _; intros st; eexists.
  all: (erewrite bind_returns by reflexivity);
    cbv zeta;
    (erewrite bind_returns by reflexivity);
    (erewrite bind_returns by apply getHeaders_run);
    unfold fetch, mbind, JS_bind; cbv zeta; reflexivity.
Qed.

(** What response handling writes to the console is fixed by the
    response. *)
Lemma handleResponse_console response st :
  console (world (handleResponse response st).2)
  = (console (world st)
     ++ console_log [JStr ("API Response: " +:+ Number_toString (status response)
                             +:+ " " +:+ statusText response)]
        :: (if ok response then []
            else [console_error
                    [JStr "API Error:";
                     default (JObj [("message", JStr (http_error response))])
                             (json_body response)]]))%list.
Proof.
  unfold handleResponse, Response_json.
  destruct (ok response), (json_body response) as [v|]; try done; simpl;
    unfold mbind, JS_bind, catch, emit, mret, JS_ret; simpl;
    rewrite <- ?(assoc_L (++)); try done.
  by destruct (get_message v).
Qed.

(** X17: the token reaches the transport in the [Authorization] header and
    nowhere else.  Run the same call, with the same answer from the
    transport, from two states that differ only in the token held: the
    outcome and everything written to the console are the same, and the
    two requests agree on URL, method and body. *)
Theorem token_only_reaches_the_headers
    (out : Completion Response) (c : ResourceCall)
    (u : string) (t1 t2 : option string) (w : World) :
  let r1 := run_call (λ _, out) c (mkState (mkApiService u t1) w) in
  let r2 := run_call (λ _, out) c (mkState (mkApiService u t2) w) in
  r1.1 = r2.1
  ∧ console (world r1.2) = console (world r2.2)
  ∧ ∃ req1 req2,
      network (world r1.2) = (network w ++ [req1])%list
      ∧ network (world r2.2) = (network w ++ [req2])%list
      ∧ url req1 = url req2 ∧ method req1 = method req2 ∧ body req1 = body req2.
Proof.
  intros r1 r2. subst r1 r2.
  destruct (run_call_shape (λ _, out) c) as (path & line & m & b & Hshape).
  destruct (Hshape (mkState (mkApiService u t1) w)) as [h1 ->].
  destruct (Hshape (mkState (mkApiService u t2) w)) as [h2 ->].
  simpl. destruct out as [r|e].
  - rewrite !handleResponse_outcome, !handleResponse_console, !handleResponse_network.
    simpl. split; [done|]. split; [done|]. by eexists _, _.
  - simpl. split; [done|]. split; [done|]. by eexists _, _.
Qed.

(** ** Logging in and out *)

(** X18: a token change governs every later request.  After
    [setToken(t)], whatever resource method is called next sends
    [Authorization: Bearer t] when [t] is a non-empty string and no
    [Authorization] header at all when [t] is [null] or empty, as after a
    logout. *)
Theorem requests_follow_setToken
    (transport : Request → Completion Response)
    (t : option string) (c : ResourceCall) (st : State) :
  let st' := (setToken t ;; run_call transport c) st in
  ∃ req,
    last (network (world st'.2)) = Some req
    ∧ headers req !! "Authorization"
      = (λ s, "Bearer " +:+ s) <$> effective_token t.
Proof.
  intros st'. subst st'.
  erewrite bind_returns by apply setToken_run.
  match goal with |- context [run_call transport c ?s] => set (st1 := s) end.
  destruct (run_call_unfold transport c st1)
    as (path & line & m & b & h & Hh & _ & _ & ->).
  exists (mkRequest (baseURL (this st1) +:+ "/" +:+ path) m h b). split.
  - destruct (transport _) as [r|e]; [rewrite handleResponse_network|];
      simpl; apply last_snoc.
  - rewrite getHeaders_run in Hh. injection Hh as <-. subst st1. simpl.
    destruct t as [[|a s]|]; simpl;
      by rewrite ?lookup_insert_eq, ?lookup_singleton_ne.
Qed.
